(** * A model of pointerguard's [EncryptedPtr] (src/src/lib.rs)

    [u64] values are integers [Z] in [0, 2^64); Rust's wrapping shifts and
    rotations are written out with [Z.shiftl], [Z.shiftr], [Z.lor] and a
    64-bit mask. *)

From Stdlib Require Import ZArith Lia Bool List String Ascii.
Import ListNotations.
Open Scope Z_scope.

(** ** 64-bit unsigned arithmetic *)
Module U64.

Definition wf (x : Z) : Prop := 0 <= x < 2 ^ 64.

(** Truncation to the low 64 bits (what an [as u64] cast or a wrapping
    operation on [u64] does). *)
Definition mask (x : Z) : Z := Z.land x (Z.ones 64).

(** [x << n] on [u64] for a shift amount below 64: the bits pushed past bit
    63 are dropped. *)
Definition shl (x n : Z) : Z := mask (Z.shiftl x n).

(** [x >> n] on [u64]. *)
Definition shr (x n : Z) : Z := Z.shiftr x n.

(** [u64::rotate_left(x, n)]: the amount is taken modulo 64. *)
Definition rotate_left (x n : Z) : Z :=
  let s := n mod 64 in mask (Z.lor (Z.shiftl x s) (Z.shiftr x (64 - s))).

(** [u64::rotate_right(x, n)]. *)
Definition rotate_right (x n : Z) : Z :=
  let s := n mod 64 in mask (Z.lor (Z.shiftr x s) (Z.shiftl x (64 - s))).

End U64.

Import U64.

(** ** The [Encrypt] trait and its three implementations (lines 6-9, 113-183) *)

(** The implementations of the [Encrypt] trait: the closed set of
    [Box<dyn Encrypt>] values the code ever builds. *)
Inductive Encrypt := MethodA | MethodB | MethodC.

Definition MethodA_encrypt (data key : Z) : Z :=
  let data := Z.lxor data key in
  let data := rotate_left data (Z.land key 15) in
  let data := Z.lxor data (shl key 3) in
  let data := rotate_left data 7 in
  Z.lxor data (rotate_left key 11).

Definition MethodA_decrypt (data key : Z) : Z :=
  let data := Z.lxor data (rotate_left key 11) in
  let data := rotate_right data 7 in
  let data := Z.lxor data (shl key 3) in
  let data := rotate_right data (Z.land key 15) in
  Z.lxor data key.

Definition MethodB_encrypt (data key : Z) : Z :=
  let data := Z.lxor data key in
  let data := rotate_left data 13 in
  let data := Z.lxor data (rotate_left key 5) in
  let data := rotate_left data 9 in
  Z.lxor data (rotate_left key 17).

Definition MethodB_decrypt (data key : Z) : Z :=
  let data := Z.lxor data (rotate_left key 17) in
  let data := rotate_right data 9 in
  let data := Z.lxor data (rotate_left key 5) in
  let data := rotate_right data 13 in
  Z.lxor data key.

Definition MethodC_encrypt (data key : Z) : Z :=
  let data := Z.lxor data key in
  let upper := shr key 32 in
  let lower := Z.land key 4294967295 in
  let data := Z.lxor data (Z.lor (shl upper 32) lower) in
  let data := rotate_left data (key mod 31) in
  Z.lxor data (Z.lxor key (shr key 11)).

Definition MethodC_decrypt (data key : Z) : Z :=
  let data := Z.lxor data (Z.lxor key (shr key 11)) in
  let data := rotate_right data (key mod 31) in
  let upper := shr key 32 in
  let lower := Z.land key 4294967295 in
  let data := Z.lxor data (Z.lor (shl upper 32) lower) in
  Z.lxor data key.

(** Dynamic dispatch through [Box<dyn Encrypt>]. *)
Definition encrypt (m : Encrypt) : Z -> Z -> Z :=
  match m with
  | MethodA => MethodA_encrypt
  | MethodB => MethodB_encrypt
  | MethodC => MethodC_encrypt
  end.

Definition decrypt (m : Encrypt) : Z -> Z -> Z :=
  match m with
  | MethodA => MethodA_decrypt
  | MethodB => MethodB_decrypt
  | MethodC => MethodC_decrypt
  end.

(** ** The key source (lines 20-27) *)

(** A reading of [SystemTime::now()]: [None] when the platform clock cannot
    be read (std panics inside [now] then), otherwise the signed number of
    nanoseconds between the Unix epoch and the reading. *)
Definition clock_reading := option Z.

(** [generate_key]: [None] is a panic.  [duration_since(UNIX_EPOCH)] is an
    [Err] for a reading before the epoch, which [unwrap] turns into a panic;
    [as_nanos() as _] truncates the [u128] nanosecond count to [u64]. *)
Definition generate_key (now : clock_reading) : option Z :=
  match now with
  | None => None
  | Some t => if t <? 0 then None else Some (mask t)
  end.

(** ** [EncryptedPtr] (lines 11-60) *)

Record EncryptedPtr := {
  encrypted_ptr : Z;
  key : Z;
  method : Encrypt
}.

(** [vec![Box::new(MethodA), Box::new(MethodB), Box::new(MethodC)]] *)
Definition methods : list Encrypt := [MethodA; MethodB; MethodC].

(** [Vec::remove(index)]: the element and the rest of the vector; a panic
    ([None]) when [index >= len]. *)
Fixpoint vec_remove {A} (v : list A) (index : nat) : option (A * list A) :=
  match v, index with
  | [], _ => None
  | x :: v', O => Some (x, v')
  | x :: v', S i =>
      match vec_remove v' i with
      | Some (y, rest) => Some (y, x :: rest)
      | None => None
      end
  end.

(** [EncryptedPtr::new(ptr)].  The two effects of the constructor are its
    inputs: [now] is what [generate_key] reads from the system clock, and
    [choice] is the value of [rand::random_range(0..methods.len())], drawn from
    the [rand] crate's thread-local generator.  [ptr] is the address
    [ptr as u64]. *)
Definition new (now : clock_reading) (choice : nat) (ptr : Z)
  : option EncryptedPtr :=
  match generate_key now with
  | None => None
  | Some key =>
      match vec_remove methods choice with
      | None => None
      | Some (method, _) =>
          Some {| encrypted_ptr := encrypt method ptr key;
                  key := key;
                  method := method |}
      end
  end.

(** [EncryptedPtr::decrypt_ptr]: [ptr_val as *mut T] keeps the address. *)
Definition decrypt_ptr (self : EncryptedPtr) : Z :=
  decrypt (method self) (encrypted_ptr self) (key self).

(** ** Formatting *)

(** A lower-case hexadecimal digit, [0 <= d < 16]. *)
Definition hex_digit (d : Z) : ascii :=
  ascii_of_nat (Z.to_nat (if d <? 10 then 48 + d else 87 + d)).

(** The digits of [n] in base 16, most significant first, without leading
    zeros, in front of [acc]; [fuel] bounds the number of digits (16 for a
    [u64]). *)
Fixpoint lower_hex_aux (fuel : nat) (n : Z) (acc : string) : string :=
  match fuel with
  | O => acc
  | S f =>
      let acc := String (hex_digit (n mod 16)) acc in
      if n <? 16 then acc else lower_hex_aux f (n / 16) acc
  end.

(** [{:x}] on a [u64]. *)
Definition lower_hex (n : Z) : string := lower_hex_aux 16 n EmptyString.

(** [{:#x}] on a [u64]: [0x] then [{:x}]. *)
Definition alternate_lower_hex (n : Z) : string :=
  ("0x" ++ lower_hex n)%string.

Definition quote : string := String "034"%char EmptyString.

(** [Debug] of a [String] none of whose characters [escape_debug] changes. *)
Definition debug_string (s : string) : string := (quote ++ s ++ quote)%string.

(** ** The heap, [Deref], [From<Box<T>>] and [Debug] (lines 62-111) *)
Section Heap.

Context {T : Type}.

(** The live allocations holding a [T], by address. *)
Definition heap := Z -> option T.

Definition heap_update (h : heap) (a : Z) (v : option T) : heap :=
  fun b => if Z.eqb b a then v else h b.

(** [Box::new(value)]: the allocator returns the address [a] of a fresh
    allocation, which then holds [value]. *)
Definition box_new (h : heap) (a : Z) (value : T) : heap :=
  heap_update h a (Some value).

(** [Deref::deref]: decrypt on every access and read the [T] at that
    address; [None] where no live [T] is (dereferencing it is undefined
    behaviour in the source). *)
Definition deref (h : heap) (self : EncryptedPtr) : option T :=
  h (decrypt_ptr self).

(** [From<Box<T>>::from] on a box at address [a]:
    [Self::new(Box::into_raw(value))]. *)
Definition from_box (now : clock_reading) (choice : nat) (a : Z)
  : option EncryptedPtr :=
  new now choice a.

(** Wrapping an owned value: [Box::new(value).into()]. *)
Definition from_owned_value (h : heap) (a : Z) (value : T)
    (now : clock_reading) (choice : nat) : option (EncryptedPtr * heap) :=
  let h' := box_new h a value in
  match from_box now choice a with
  | Some p => Some (p, h')
  | None => None
  end.

(** [DerefMut::deref_mut] (decrypting again) followed by a write of [value]
    through the returned [&mut T]; [None] where no live [T] is. *)
Definition deref_mut_write (h : heap) (self : EncryptedPtr) (value : T)
  : option heap :=
  let ptr := decrypt_ptr self in
  match h ptr with
  | None => None
  | Some _ => Some (heap_update h ptr (Some value))
  end.

(** [Drop::drop]: decrypt the pointer, [drop_in_place] the [T] there (the
    value handed to its destructor is returned) and [dealloc] the allocation;
    [None] where no live [T] is. *)
Definition drop (h : heap) (self : EncryptedPtr) : option (T * heap) :=
  let ptr := decrypt_ptr self in
  match h ptr with
  | None => None
  | Some v => Some (v, heap_update h ptr None)
  end.

(** [impl<T: fmt::Debug> fmt::Debug for EncryptedPtr<T>]: [dbg] is the
    pointee's own [Debug] output ([{:?}], non-alternate form).  [debug_struct]
    writes [Name { field: value, field: value }]; the [encrypted_value]
    field is the [String] [format!("{:#x}", ..)], whose [Debug] output is the
    string between double quotes (its characters need no escaping). *)
Definition fmt (dbg : T -> string) (h : heap) (self : EncryptedPtr)
  : option string :=
  match deref h self with
  | None => None
  | Some v =>
      Some ("EncryptedPtr { encrypted_value: "
            ++ debug_string (alternate_lower_hex (encrypted_ptr self))
            ++ ", pointed_value: " ++ dbg v ++ " }")%string
  end.

End Heap.

(** The [Player] struct of the [decrypt_ptr_box] test (lines 192-195). *)
Record Player := { health : Z }.

(** The heap before the test allocates anything. *)
Definition empty_heap {T : Type} : @heap T := fun _ => None.

(** ** Bit-level facts about [u64] operations *)
Create HintDb u64.

Lemma wf_testbit_high x i : wf x -> 64 <= i -> Z.testbit x i = false.
Proof.
  intros Hx Hi. rewrite <- (Z.mod_small x (2 ^ 64)) by exact Hx.
  apply Z.mod_pow2_bits_high. lia.
Qed.

Lemma wf_of_bits x :
  0 <= x -> (forall i, 64 <= i -> Z.testbit x i = false) -> wf x.
Proof.
  intros Hpos Hhi.
  assert (E : x = x mod 2 ^ 64).
  { apply Z.bits_inj'. intros i Hi.
    destruct (Z.lt_ge_cases i 64).
    - rewrite Z.mod_pow2_bits_low by lia. reflexivity.
    - rewrite Z.mod_pow2_bits_high by lia. apply Hhi. lia. }
  unfold wf. rewrite E. apply Z.mod_pos_bound. lia.
Qed.

Lemma wf_eq_bits x y :
  wf x -> wf y -> (forall i, 0 <= i < 64 -> Z.testbit x i = Z.testbit y i) ->
  x = y.
Proof.
  intros Hx Hy H. apply Z.bits_inj'. intros i Hi.
  destruct (Z.lt_ge_cases i 64).
  - apply H. lia.
  - rewrite !wf_testbit_high by (auto; lia). reflexivity.
Qed.

Lemma mask_wf x : wf (mask x).
Proof.
  unfold mask, wf. rewrite Z.land_ones by lia. apply Z.mod_pos_bound. lia.
Qed.

Lemma mask_testbit x i : 0 <= i < 64 -> Z.testbit (mask x) i = Z.testbit x i.
Proof.
  intros Hi. unfold mask. rewrite Z.land_spec, Z.ones_spec_low by lia.
  apply andb_true_r.
Qed.

Lemma lxor_wf x y : wf x -> wf y -> wf (Z.lxor x y).
Proof.
  intros Hx Hy. apply wf_of_bits.
  - apply Z.lxor_nonneg. split; intros; unfold wf in *; lia.
  - intros i Hi. rewrite Z.lxor_spec, !wf_testbit_high by auto. reflexivity.
Qed.

Lemma shl_wf x n : wf (shl x n).
Proof. apply mask_wf. Qed.

Lemma rotate_left_wf x n : wf (rotate_left x n).
Proof. apply mask_wf. Qed.

Lemma rotate_right_wf x n : wf (rotate_right x n).
Proof. apply mask_wf. Qed.

Lemma shr_wf x n : wf x -> 0 <= n -> wf (shr x n).
Proof.
  intros Hx Hn. unfold shr. apply wf_of_bits.
  - apply Z.shiftr_nonneg. unfold wf in Hx; lia.
  - intros i Hi. rewrite Z.shiftr_spec by lia. apply wf_testbit_high; auto; lia.
Qed.

#[global] Hint Resolve lxor_wf shl_wf rotate_left_wf rotate_right_wf mask_wf : u64.

Lemma rotate_left_testbit x n i :
  wf x -> 0 <= i < 64 ->
  Z.testbit (rotate_left x n) i = Z.testbit x ((i - n) mod 64).
Proof.
  intros Hx Hi. unfold rotate_left.
  assert (Hs : 0 <= n mod 64 < 64) by (apply Z.mod_pos_bound; lia).
  set (s := n mod 64) in *.
  rewrite mask_testbit by exact Hi.
  rewrite Z.lor_spec, Z.shiftl_spec, Z.shiftr_spec by lia.
  rewrite <- Zminus_mod_idemp_r. fold s.
  destruct (Z.le_gt_cases s i).
  - rewrite (Z.mod_small (i - s)) by lia.
    rewrite (wf_testbit_high x (i + (64 - s))) by (auto; lia).
    apply orb_false_r.
  - rewrite (Z.testbit_neg_r x (i - s)) by lia.
    replace (i - s) with ((i + (64 - s)) + (-1) * 64) by ring.
    rewrite Z.mod_add, Z.mod_small by lia. reflexivity.
Qed.

Lemma rotate_right_testbit x n i :
  wf x -> 0 <= i < 64 ->
  Z.testbit (rotate_right x n) i = Z.testbit x ((i + n) mod 64).
Proof.
  intros Hx Hi. unfold rotate_right.
  assert (Hs : 0 <= n mod 64 < 64) by (apply Z.mod_pos_bound; lia).
  set (s := n mod 64) in *.
  rewrite mask_testbit by exact Hi.
  rewrite Z.lor_spec, Z.shiftl_spec, Z.shiftr_spec by lia.
  rewrite <- Zplus_mod_idemp_r. fold s.
  destruct (Z.lt_ge_cases (i + s) 64).
  - rewrite (Z.mod_small (i + s)) by lia.
    rewrite (Z.testbit_neg_r x (i - (64 - s))) by lia.
    apply orb_false_r.
  - rewrite (wf_testbit_high x (i + s)) by (auto; lia).
    replace (i + s) with ((i - (64 - s)) + 1 * 64) by ring.
    rewrite Z.mod_add, Z.mod_small by lia. reflexivity.
Qed.

Lemma rotate_right_left x n : wf x -> rotate_right (rotate_left x n) n = x.
Proof.
  intros Hx. apply wf_eq_bits; auto with u64. intros i Hi.
  rewrite rotate_right_testbit by (auto with u64).
  rewrite rotate_left_testbit by (auto; apply Z.mod_pos_bound; lia).
  rewrite Zminus_mod_idemp_l.
  replace (i + n - n) with i by ring. rewrite Z.mod_small by lia. reflexivity.
Qed.

Lemma rotate_left_right x n : wf x -> rotate_left (rotate_right x n) n = x.
Proof.
  intros Hx. apply wf_eq_bits; auto with u64. intros i Hi.
  rewrite rotate_left_testbit by (auto with u64).
  rewrite rotate_right_testbit by (auto; apply Z.mod_pos_bound; lia).
  rewrite Zplus_mod_idemp_l.
  replace (i - n + n) with i by ring. rewrite Z.mod_small by lia. reflexivity.
Qed.

Lemma lxor_cancel_r a b : Z.lxor (Z.lxor a b) b = a.
Proof. rewrite Z.lxor_assoc, Z.lxor_nilpotent, Z.lxor_0_r. reflexivity. Qed.

Lemma rotate_left_lxor x y n :
  wf x -> wf y ->
  rotate_left (Z.lxor x y) n = Z.lxor (rotate_left x n) (rotate_left y n).
Proof.
  intros Hx Hy. apply wf_eq_bits; auto with u64. intros i Hi.
  rewrite Z.lxor_spec, !rotate_left_testbit by auto with u64.
  apply Z.lxor_spec.
Qed.

Lemma rotate_left_rotate_left x a b :
  wf x -> rotate_left (rotate_left x a) b = rotate_left x (a + b).
Proof.
  intros Hx. apply wf_eq_bits; auto with u64. intros i Hi.
  rewrite !rotate_left_testbit by (auto with u64; apply Z.mod_pos_bound; lia).
  rewrite Zminus_mod_idemp_l. f_equal. f_equal. ring.
Qed.

Lemma rotate_left_0 n : rotate_left 0 n = 0.
Proof.
  unfold rotate_left. rewrite Z.shiftl_0_l, Z.shiftr_0_l. reflexivity.
Qed.

Lemma rotate_left_by_0 x : wf x -> rotate_left x 0 = x.
Proof.
  intros Hx. apply wf_eq_bits; auto with u64. intros i Hi.
  rewrite rotate_left_testbit by auto.
  rewrite Z.sub_0_r, Z.mod_small by lia. reflexivity.
Qed.

Lemma shr_testbit x n i : 0 <= n -> 0 <= i -> Z.testbit (shr x n) i = Z.testbit x (i + n).
Proof. intros Hn Hi. unfold shr. apply Z.shiftr_spec. exact Hi. Qed.

(** [((key >> 32) << 32) | (key & 0xFFFFFFFF)] is [key] again. *)
Lemma recombine_halves k :
  wf k -> Z.lor (shl (shr k 32) 32) (Z.land k 4294967295) = k.
Proof.
  intros Hk. apply wf_eq_bits; auto.
  - apply wf_of_bits.
    + apply Z.lor_nonneg. split.
      * apply mask_wf.
      * apply Z.land_nonneg. left. unfold wf in Hk; lia.
    + intros i Hi. rewrite Z.lor_spec, Z.land_spec.
      rewrite (wf_testbit_high (shl _ _)) by (auto with u64; lia).
      rewrite (wf_testbit_high k) by (auto; lia). reflexivity.
  - intros i Hi. change 4294967295 with (Z.ones 32).
    unfold shl. rewrite Z.lor_spec, Z.land_spec, mask_testbit by exact Hi.
    rewrite Z.shiftl_spec by lia.
    destruct (Z.lt_ge_cases i 32).
    + rewrite Z.ones_spec_low, Z.testbit_neg_r by lia.
      rewrite andb_true_r. reflexivity.
    + rewrite Z.ones_spec_high by lia. rewrite shr_testbit by lia.
      replace (i - 32 + 32) with i by ring.
      rewrite andb_false_r, orb_false_r. reflexivity.
Qed.

(** * Claims *)

Lemma decrypt_encrypt_u64 (m : Encrypt) (data key : Z) :
  wf data -> wf key -> decrypt m (encrypt m data key) key = data.
Proof.
  intros Hd Hk. destruct m; simpl.
  - unfold MethodA_encrypt, MethodA_decrypt.
    rewrite lxor_cancel_r, rotate_right_left by auto with u64.
    rewrite lxor_cancel_r, rotate_right_left by auto with u64.
    apply lxor_cancel_r.
  - unfold MethodB_encrypt, MethodB_decrypt.
    rewrite lxor_cancel_r, rotate_right_left by auto with u64.
    rewrite lxor_cancel_r, rotate_right_left by auto with u64.
    apply lxor_cancel_r.
  - unfold MethodC_encrypt, MethodC_decrypt.
    rewrite !recombine_halves by exact Hk.
    rewrite !lxor_cancel_r. apply rotate_right_left. exact Hd.
Qed.

(** C1: for every [Encrypt] implementation and all 64-bit [data] and [key],
    [decrypt(encrypt(data, key), key) == data]. *)
Theorem decrypt_encrypt (m : Encrypt) (data key : Z) :
  wf data -> wf key -> decrypt m (encrypt m data key) key = data.
Proof. apply decrypt_encrypt_u64. Qed.

Lemma decrypt_encrypt_witness :
  wf 18364757930599072545 /\ wf 1311768467294899695 /\
  decrypt MethodB (encrypt MethodB 18364757930599072545 1311768467294899695)
    1311768467294899695 = 18364757930599072545.
Proof.
  split; [unfold wf; lia | split; [unfold wf; lia |]].
  apply decrypt_encrypt; unfold wf; lia.
Defined.

(** ** Facts about construction *)

Lemma generate_key_wf now k : generate_key now = Some k -> wf k.
Proof.
  destruct now as [t|]; simpl; [|discriminate].
  destruct (t <? 0); [discriminate|]. intros H. injection H as <-.
  apply mask_wf.
Qed.

Lemma vec_remove_nth_error {A} (v : list A) i x rest :
  vec_remove v i = Some (x, rest) -> nth_error v i = Some x.
Proof.
  revert i rest. induction v as [|y v IH]; intros i rest; simpl.
  - discriminate.
  - destruct i as [|i].
    + intros H. injection H as -> _. reflexivity.
    + destruct (vec_remove v i) as [[z r]|] eqn:E; [|discriminate].
      intros H. injection H as -> _. apply (IH i r E).
Qed.

Lemma new_inv now choice ptr e :
  new now choice ptr = Some e ->
  generate_key now = Some (key e) /\
  nth_error methods choice = Some (method e) /\
  encrypted_ptr e = encrypt (method e) ptr (key e).
Proof.
  unfold new. destruct (generate_key now) as [k|] eqn:Hk; [|discriminate].
  destruct (vec_remove methods choice) as [[m rest]|] eqn:Hm; [|discriminate].
  intros H. injection H as <-. simpl.
  split; [reflexivity | split; [|reflexivity]].
  apply (vec_remove_nth_error _ _ _ _ Hm).
Qed.

Lemma new_decrypt_ptr now choice ptr e :
  wf ptr -> new now choice ptr = Some e -> decrypt_ptr e = ptr.
Proof.
  intros Hp Hn. destruct (new_inv _ _ _ _ Hn) as (Hk & _ & He).
  unfold decrypt_ptr. rewrite He. apply decrypt_encrypt_u64; [exact Hp|].
  exact (generate_key_wf _ _ Hk).
Qed.

(** C2: wrapping a value with [Box::new(value).into()] and reading it back
    through [Deref] yields the value itself. *)
Theorem deref_from_owned_value {T : Type} (h : @heap T) (a : Z) (value : T)
    (now : clock_reading) (choice : nat) (p : EncryptedPtr) (h' : @heap T) :
  wf a ->
  from_owned_value h a value now choice = Some (p, h') ->
  deref h' p = Some value.
Proof.
  intros Ha H. unfold from_owned_value, from_box in H.
  destruct (new now choice a) as [p'|] eqn:Hn; [|discriminate].
  injection H as <- <-.
  unfold deref, box_new, heap_update.
  rewrite (new_decrypt_ptr _ _ _ _ Ha Hn), Z.eqb_refl. reflexivity.
Qed.

(** Concrete scenario 2: a [Player] with [health = 100]. *)
Lemma deref_from_owned_value_witness :
  exists p h',
    from_owned_value empty_heap 93824992215040 {| health := 100 |}
      (Some 1760000000000000000) 1 = Some (p, h') /\
    option_map health (deref h' p) = Some 100.
Proof.
  eexists _, _. split; [reflexivity|].
  rewrite (deref_from_owned_value empty_heap 93824992215040 {| health := 100 |}
             (Some 1760000000000000000) 1 _ _);
    [reflexivity | unfold wf; lia | reflexivity].
Defined.

(** C3: whatever key the clock gave and whichever implementation was chosen,
    [decrypt_ptr] of a pointer built by [new(ptr)] is [ptr]. *)
Theorem decrypt_ptr_new (now : clock_reading) (choice : nat) (ptr : Z)
    (e : EncryptedPtr) :
  wf ptr -> new now choice ptr = Some e -> decrypt_ptr e = ptr.
Proof. apply new_decrypt_ptr. Qed.

Lemma decrypt_ptr_new_witness :
  exists e, new (Some 1760000000000000000) 2 93824992215040 = Some e /\
            decrypt_ptr e = 93824992215040.
Proof.
  eexists. split; [reflexivity|].
  apply (decrypt_ptr_new (Some 1760000000000000000) 2); [unfold wf; lia | reflexivity].
Defined.

(** ** Each [encrypt] is a rotation of [data] followed by a key-only mask *)

Lemma MethodA_encrypt_affine d k :
  wf d -> wf k ->
  MethodA_encrypt d k =
  Z.lxor (rotate_left d (Z.land k 15 + 7)) (MethodA_encrypt 0 k).
Proof.
  intros Hd Hk. unfold MethodA_encrypt; cbv zeta. rewrite Z.lxor_0_l.
  rewrite (rotate_left_lxor d k) by auto.
  rewrite Z.lxor_assoc.
  rewrite (rotate_left_lxor (rotate_left d _)) by auto with u64.
  rewrite Z.lxor_assoc, rotate_left_rotate_left by exact Hd.
  reflexivity.
Qed.

Lemma MethodB_encrypt_affine d k :
  wf d -> wf k ->
  MethodB_encrypt d k = Z.lxor (rotate_left d 22) (MethodB_encrypt 0 k).
Proof.
  intros Hd Hk. unfold MethodB_encrypt; cbv zeta. rewrite Z.lxor_0_l.
  rewrite (rotate_left_lxor d k) by auto.
  rewrite Z.lxor_assoc.
  rewrite (rotate_left_lxor (rotate_left d _)) by auto with u64.
  rewrite Z.lxor_assoc, rotate_left_rotate_left by exact Hd.
  reflexivity.
Qed.

Lemma MethodC_encrypt_affine d k :
  wf d -> wf k ->
  MethodC_encrypt d k = Z.lxor (rotate_left d (k mod 31)) (MethodC_encrypt 0 k).
Proof.
  intros Hd Hk. unfold MethodC_encrypt. rewrite !recombine_halves by exact Hk.
  rewrite !lxor_cancel_r, rotate_left_0, Z.lxor_0_l. reflexivity.
Qed.

(** A rotation that fixes [1] is a rotation by a multiple of 64. *)
Lemma rotate_left_1_fixed n : rotate_left 1 n = 1 -> n mod 64 = 0.
Proof.
  intros H.
  assert (Hb : Z.testbit (rotate_left 1 n) 0 = true) by (rewrite H; reflexivity).
  rewrite rotate_left_testbit in Hb by (unfold wf; lia).
  assert (Hs : 0 <= (0 - n) mod 64 < 64) by (apply Z.mod_pos_bound; lia).
  destruct (Z.eq_dec ((0 - n) mod 64) 0) as [E|E].
  - Z.div_mod_to_equations. lia.
  - rewrite Z.bits_above_log2 in Hb; [discriminate | lia |].
    change (Z.log2 1) with 0. lia.
Qed.

(** C4 fails: [MethodC] with the nonzero key [63] leaves the address [21]
    unchanged ([63 mod 31 = 1], and rotating [21] left by one and xoring
    [63 ^ (63 >> 11) = 63] gives [21] back). *)
Lemma MethodC_fixed_point_nonzero_key :
  wf 21 /\ wf 63 /\ 63 <> 0 /\ encrypt MethodC 21 63 = 21.
Proof.
  split; [unfold wf; lia|]. split; [unfold wf; lia|]. split; [lia|].
  vm_compute. reflexivity.
Qed.

(** C4, as amended: for every implementation and every nonzero key,
    [encrypt(_, key)] is not the identity: it changes the address [0] or the
    address [1]. *)
Theorem encrypt_not_identity (m : Encrypt) (key : Z) :
  wf key -> key <> 0 -> encrypt m 0 key <> 0 \/ encrypt m 1 key <> 1.
Proof.
  intros Hk Hnz.
  destruct (Z.eq_dec (encrypt m 0 key) 0) as [E0|E0]; [right | left; exact E0].
  intros E1. assert (H1 : wf 1) by (unfold wf; lia).
  destruct m; simpl in E0, E1.
  - rewrite MethodA_encrypt_affine, E0, Z.lxor_0_r in E1 by auto.
    apply rotate_left_1_fixed in E1.
    change 15 with (Z.ones 4) in E1. rewrite Z.land_ones in E1 by lia.
    Z.div_mod_to_equations. lia.
  - rewrite MethodB_encrypt_affine, E0, Z.lxor_0_r in E1 by auto.
    apply rotate_left_1_fixed in E1. discriminate E1.
  - unfold MethodC_encrypt in E0.
    rewrite recombine_halves, lxor_cancel_r, rotate_left_0, Z.lxor_0_l in E0
      by exact Hk.
    apply Z.lxor_eq in E0. unfold shr in E0.
    rewrite Z.shiftr_div_pow2 in E0 by lia.
    assert (Hlt : key / 2 ^ 11 < key)
      by (apply Z.div_lt; unfold wf in Hk; lia).
    lia.
Qed.

Lemma encrypt_not_identity_witness :
  wf 1760000000000000000 /\ 1760000000000000000 <> 0 /\
  (encrypt MethodC 0 1760000000000000000 <> 0 \/
   encrypt MethodC 1 1760000000000000000 <> 1).
Proof.
  split; [unfold wf; lia|]. split; [lia|].
  apply encrypt_not_identity; [unfold wf; lia | lia].
Defined.

(** C5 fails: with key [0], [MethodA] and [MethodB] still move the
    address [1]. *)
Lemma encrypt_key_0_moves_address :
  encrypt MethodA 1 0 = 128 /\ encrypt MethodB 1 0 = 4194304.
Proof. split; vm_compute; reflexivity. Qed.

(** C5, as amended: with key [0], [MethodC] leaves every address unchanged,
    while [MethodA] rotates it left by 7 and [MethodB] rotates it left by
    22. *)
Theorem encrypt_key_0 (address : Z) :
  wf address ->
  encrypt MethodA address 0 = rotate_left address 7 /\
  encrypt MethodB address 0 = rotate_left address 22 /\
  encrypt MethodC address 0 = address.
Proof.
  intros Ha. assert (H0 : wf 0) by (unfold wf; lia).
  split; [|split]; simpl.
  - rewrite MethodA_encrypt_affine by auto.
    replace (MethodA_encrypt 0 0) with 0 by (vm_compute; reflexivity).
    rewrite Z.lxor_0_r. reflexivity.
  - rewrite MethodB_encrypt_affine by auto.
    replace (MethodB_encrypt 0 0) with 0 by (vm_compute; reflexivity).
    rewrite Z.lxor_0_r. reflexivity.
  - rewrite MethodC_encrypt_affine by auto.
    replace (MethodC_encrypt 0 0) with 0 by (vm_compute; reflexivity).
    rewrite Z.lxor_0_r. apply rotate_left_by_0. exact Ha.
Qed.

Lemma encrypt_key_0_witness :
  wf 93824992215040 /\
  encrypt MethodA 93824992215040 0 = rotate_left 93824992215040 7 /\
  encrypt MethodB 93824992215040 0 = rotate_left 93824992215040 22 /\
  encrypt MethodC 93824992215040 0 = 93824992215040.
Proof.
  split; [unfold wf; lia|]. apply encrypt_key_0. unfold wf; lia.
Defined.

(** C10: in [MethodC::encrypt] the xor with [key] and the xor with the
    recombined halves of [key] cancel: the result is
    [data.rotate_left(key % 31) ^ key ^ (key >> 11)]. *)
Theorem MethodC_encrypt_reduced (data key : Z) :
  wf key ->
  encrypt MethodC data key =
  Z.lxor (Z.lxor (rotate_left data (key mod 31)) key) (shr key 11).
Proof.
  intros Hk. simpl. unfold MethodC_encrypt.
  rewrite recombine_halves by exact Hk.
  rewrite lxor_cancel_r, Z.lxor_assoc. reflexivity.
Qed.

Lemma MethodC_encrypt_reduced_witness :
  wf 1311768467294899695 /\
  encrypt MethodC 18364757930599072545 1311768467294899695 =
  Z.lxor (Z.lxor (rotate_left 18364757930599072545 (1311768467294899695 mod 31))
            1311768467294899695) (shr 1311768467294899695 11).
Proof.
  split; [unfold wf; lia|]. apply MethodC_encrypt_reduced. unfold wf; lia.
Defined.

(** C9: [generate_key] returns exactly for a clock reading at or after the
    Unix epoch, and then returns that reading in nanoseconds modulo [2^64]. *)
Theorem generate_key_spec (now : clock_reading) (k : Z) :
  generate_key now = Some k <->
  exists t, now = Some t /\ 0 <= t /\ k = t mod 2 ^ 64.
Proof.
  split.
  - destruct now as [t|]; simpl; [|discriminate].
    destruct (Z.ltb_spec t 0) as [Hlt|Hge]; [discriminate|].
    intros E. injection E as <-. exists t. split; [reflexivity|]. split; [lia|].
    unfold mask. apply Z.land_ones. lia.
  - intros (t & -> & Ht & ->). simpl.
    destruct (Z.ltb_spec t 0) as [Hlt|Hge]; [lia|].
    unfold mask. rewrite Z.land_ones by lia. reflexivity.
Qed.

(** C8 fails: with a readable clock that reads one nanosecond before the
    Unix epoch, [generate_key] panics in [unwrap]. *)
Lemma generate_key_panics_before_epoch : generate_key (Some (-1)) = None.
Proof. reflexivity. Qed.

(** C8, as amended: [generate_key] panics exactly when the clock cannot be
    read or reads a time before the Unix epoch. *)
Theorem generate_key_panics (now : clock_reading) :
  generate_key now = None <-> now = None \/ exists t, now = Some t /\ t < 0.
Proof.
  destruct now as [t|]; simpl.
  - destruct (Z.ltb_spec t 0) as [Hlt|Hge].
    + split; [intros _; right; exists t; auto | reflexivity].
    + split; [discriminate|].
      intros [H | (t' & H & Ht')]; [discriminate|].
      injection H as <-. lia.
  - split; [intros _; left; reflexivity | reflexivity].
Qed.

(** C7 fails: two constructions that read the same clock value can select
    different implementations, as the selection comes from [rand]. *)
Lemma same_clock_different_method :
  exists e1 e2,
    new (Some 1760000000000000000) 0 93824992215040 = Some e1 /\
    new (Some 1760000000000000000) 1 93824992215040 = Some e2 /\
    key e1 = key e2 /\ method e1 <> method e2.
Proof.
  eexists _, _. split; [reflexivity|]. split; [reflexivity|].
  split; [reflexivity | discriminate].
Qed.

(** C7, as amended: the key of a constructed pointer is what [generate_key]
    derives from the clock, and its implementation is [methods[choice]] for
    the index [choice] drawn by [rand::random_range]. *)
Theorem new_key_and_method (now : clock_reading) (choice : nat) (ptr : Z)
    (e : EncryptedPtr) :
  new now choice ptr = Some e ->
  generate_key now = Some (key e) /\ nth_error methods choice = Some (method e).
Proof.
  intros Hn. destruct (new_inv _ _ _ _ Hn) as (Hk & Hm & _). auto.
Qed.

Lemma new_key_and_method_witness :
  exists e,
    new (Some 1760000000000000000) 1 93824992215040 = Some e /\
    generate_key (Some 1760000000000000000) = Some (key e) /\
    nth_error methods 1 = Some (method e).
Proof.
  eexists. split; [reflexivity|].
  apply (new_key_and_method (Some 1760000000000000000) 1 93824992215040).
  reflexivity.
Defined.

Lemma string_append_assoc (a b c : string) :
  ((a ++ b) ++ c)%string = (a ++ b ++ c)%string.
Proof. induction a as [|x a IH]; simpl; [reflexivity | rewrite IH; reflexivity]. Qed.

(** ** Width of the hexadecimal rendering *)

Lemma lower_hex_aux_length (f : nat) (n : Z) (acc : string) :
  0 <= n < 16 ^ Z.of_nat f -> f <> O ->
  String.length (lower_hex_aux f n acc) =
  (Z.to_nat (Z.log2 n / 4 + 1) + String.length acc)%nat.
Proof.
  revert n acc. induction f as [|f IH]; intros n acc Hn Hf; [contradiction|].
  simpl lower_hex_aux. destruct (Z.ltb_spec n 16) as [Hlt|Hge].
  - assert (Hl : Z.log2 n <= 3).
    { destruct (Z.eq_dec n 0) as [->|Hnz]; [simpl; lia|].
      apply Z.lt_succ_r. apply Z.log2_lt_pow2; lia. }
    assert (Hl0 : 0 <= Z.log2 n) by apply Z.log2_nonneg.
    rewrite (Z.div_small (Z.log2 n) 4) by lia. simpl. reflexivity.
  - assert (Hf' : f <> O).
    { intros ->. simpl in Hn. lia. }
    assert (Hq : 0 <= n / 16 < 16 ^ Z.of_nat f).
    { split; [apply Z.div_pos; lia|].
      apply Z.div_lt_upper_bound; [lia|].
      rewrite Nat2Z.inj_succ, Z.pow_succ_r in Hn by lia. lia. }
    rewrite (IH _ _ Hq Hf'). simpl String.length.
    assert (Hd : n / 16 = Z.shiftr n 4) by (rewrite Z.shiftr_div_pow2; reflexivity || lia).
    rewrite Hd, Z.log2_shiftr by lia.
    assert (Hl : 4 <= Z.log2 n).
    { change 4 with (Z.log2 16). apply Z.log2_le_mono. lia. }
    rewrite Z.max_r by lia. Z.div_mod_to_equations. lia.
Qed.

(** C6 fails: the same pointer built at two clock readings 21ns apart
    renders its encrypted address with 16 and with 15 hexadecimal digits. *)
Lemma fmt_width_varies :
  let h := box_new empty_heap 93824992215040 tt in
  exists e1 e2 s1 s2,
    new (Some 1760000000000000000) 2 93824992215040 = Some e1 /\
    new (Some 1760000000000000021) 2 93824992215040 = Some e2 /\
    fmt (fun _ : unit => "()"%string) h e1 = Some s1 /\
    fmt (fun _ : unit => "()"%string) h e2 = Some s2 /\
    String.length (lower_hex (encrypted_ptr e1)) = 16%nat /\
    String.length (lower_hex (encrypted_ptr e2)) = 15%nat /\
    String.length s1 <> String.length s2.
Proof.
  intros h. eexists _, _, _, _.
  split; [reflexivity|]. split; [reflexivity|].
  split; [vm_compute; reflexivity|]. split; [vm_compute; reflexivity|].
  split; [vm_compute; reflexivity|]. split; [vm_compute; reflexivity|].
  vm_compute. discriminate.
Qed.

(** C6, as amended: the [Debug] output is
    [EncryptedPtr { encrypted_value: "0x<hex>", pointed_value: <pointee> }]
    where [<hex>] is the encrypted address in lower-case hexadecimal without
    leading zeros: [1 + log2(address) / 4] digits, not a fixed width. *)
Theorem fmt_spec {T : Type} (dbg : T -> string) (h : @heap T)
    (self : EncryptedPtr) (v : T) :
  deref h self = Some v -> wf (encrypted_ptr self) ->
  fmt dbg h self =
    Some ("EncryptedPtr { encrypted_value: " ++ quote ++ "0x"
          ++ lower_hex (encrypted_ptr self) ++ quote
          ++ ", pointed_value: " ++ dbg v ++ " }")%string /\
  String.length (lower_hex (encrypted_ptr self)) =
    Z.to_nat (Z.log2 (encrypted_ptr self) / 4 + 1).
Proof.
  intros Hd Hw. split.
  - unfold fmt. rewrite Hd. unfold debug_string, alternate_lower_hex.
    simpl. rewrite !string_append_assoc. reflexivity.
  - unfold lower_hex. rewrite lower_hex_aux_length; [simpl; lia | | discriminate].
    unfold wf in Hw. simpl. lia.
Qed.

Lemma fmt_spec_witness :
  exists e,
    new (Some 1760000000000000000) 2 93824992215040 = Some e /\
    deref (box_new empty_heap 93824992215040 tt) e = Some tt /\
    wf (encrypted_ptr e) /\
    String.length (lower_hex (encrypted_ptr e)) =
      Z.to_nat (Z.log2 (encrypted_ptr e) / 4 + 1).
Proof.
  eexists. split; [reflexivity|].
  assert (Hd : deref (box_new empty_heap 93824992215040 tt)
                 {| encrypted_ptr := encrypt MethodC 93824992215040
                                       (mask 1760000000000000000);
                    key := mask 1760000000000000000; method := MethodC |}
               = Some tt) by (vm_compute; reflexivity).
  assert (Hw : wf (encrypt MethodC 93824992215040 (mask 1760000000000000000)))
    by (unfold wf; split; [apply Z.leb_le | apply Z.ltb_lt]; vm_compute; reflexivity).
  split; [exact Hd|]. split; [exact Hw|].
  exact (proj2 (fmt_spec (fun _ : unit => "()"%string) _ _ tt Hd Hw)).
Defined.

(** * Further properties of the code *)

Lemma encrypt_decrypt_u64 (m : Encrypt) (data key : Z) :
  wf data -> wf key -> encrypt m (decrypt m data key) key = data.
Proof.
  intros Hd Hk. destruct m; simpl.
  - unfold MethodA_encrypt, MethodA_decrypt.
    rewrite lxor_cancel_r, rotate_left_right by auto with u64.
    rewrite lxor_cancel_r, rotate_left_right by auto with u64.
    apply lxor_cancel_r.
  - unfold MethodB_encrypt, MethodB_decrypt.
    rewrite lxor_cancel_r, rotate_left_right by auto with u64.
    rewrite lxor_cancel_r, rotate_left_right by auto with u64.
    apply lxor_cancel_r.
  - unfold MethodC_encrypt, MethodC_decrypt.
    rewrite !recombine_halves by exact Hk.
    rewrite !lxor_cancel_r. rewrite rotate_left_right by (apply lxor_wf; [|apply lxor_wf; [|apply shr_wf]]; auto; lia).
    apply lxor_cancel_r.
Qed.

(** X1: every [decrypt] is also a right inverse of its [encrypt]: each
    [encrypt(_, key)] is a bijection of the 64-bit values. *)
Theorem encrypt_decrypt (m : Encrypt) (data key : Z) :
  wf data -> wf key -> encrypt m (decrypt m data key) key = data.
Proof. apply encrypt_decrypt_u64. Qed.

Lemma encrypt_decrypt_witness :
  wf 18364757930599072545 /\ wf 1311768467294899695 /\
  encrypt MethodA (decrypt MethodA 18364757930599072545 1311768467294899695)
    1311768467294899695 = 18364757930599072545.
Proof.
  split; [unfold wf; lia | split; [unfold wf; lia |]].
  apply encrypt_decrypt; unfold wf; lia.
Defined.

(** X2: two pointers wrapped with the same clock reading and the same
    random choice never share an encrypted address unless the pointers are
    equal. *)
Theorem new_encrypted_ptr_injective (now : clock_reading) (choice : nat)
    (ptr1 ptr2 : Z) (e1 e2 : EncryptedPtr) :
  wf ptr1 -> wf ptr2 ->
  new now choice ptr1 = Some e1 -> new now choice ptr2 = Some e2 ->
  encrypted_ptr e1 = encrypted_ptr e2 -> ptr1 = ptr2.
Proof.
  intros H1 H2 Hn1 Hn2 Heq.
  rewrite <- (new_decrypt_ptr _ _ _ _ H1 Hn1), <- (new_decrypt_ptr _ _ _ _ H2 Hn2).
  destruct (new_inv _ _ _ _ Hn1) as (Hk1 & Hm1 & _).
  destruct (new_inv _ _ _ _ Hn2) as (Hk2 & Hm2 & _).
  rewrite Hk1 in Hk2. rewrite Hm1 in Hm2.
  injection Hk2 as Hk. injection Hm2 as Hm.
  unfold decrypt_ptr. rewrite Heq, Hk, Hm. reflexivity.
Qed.

Lemma new_encrypted_ptr_injective_witness :
  exists e1 e2,
    new (Some 1760000000000000000) 0 93824992215040 = Some e1 /\
    new (Some 1760000000000000000) 0 93824992215056 = Some e2 /\
    (encrypted_ptr e1 = encrypted_ptr e2 -> 93824992215040 = 93824992215056).
Proof.
  eexists _, _. split; [reflexivity|]. split; [reflexivity|].
  apply (new_encrypted_ptr_injective (Some 1760000000000000000) 0);
    [unfold wf; lia | unfold wf; lia | reflexivity | reflexivity].
Defined.

Lemma lxor_cancel_common a b c : Z.lxor (Z.lxor a c) (Z.lxor b c) = Z.lxor a b.
Proof.
  rewrite (Z.lxor_comm b c), Z.lxor_assoc, <- (Z.lxor_assoc c c b),
    Z.lxor_nilpotent, Z.lxor_0_l. reflexivity.
Qed.

(** X3: the xor of two addresses encrypted with the same implementation and
    key is the xor of the plain addresses rotated left by an amount fixed by
    the implementation ([(key & 0xF) + 7] for [MethodA], [22] for [MethodB],
    [key % 31] for [MethodC]); every other key-dependent step cancels. *)
Theorem encrypt_lxor_difference (m : Encrypt) (key d1 d2 : Z) :
  wf key -> wf d1 -> wf d2 ->
  Z.lxor (encrypt m d1 key) (encrypt m d2 key) =
  rotate_left (Z.lxor d1 d2)
    (match m with
     | MethodA => Z.land key 15 + 7
     | MethodB => 22
     | MethodC => key mod 31
     end).
Proof.
  intros Hk H1 H2. rewrite rotate_left_lxor by auto.
  destruct m; simpl.
  - rewrite (MethodA_encrypt_affine d1), (MethodA_encrypt_affine d2) by auto.
    apply lxor_cancel_common.
  - rewrite (MethodB_encrypt_affine d1), (MethodB_encrypt_affine d2) by auto.
    apply lxor_cancel_common.
  - rewrite (MethodC_encrypt_affine d1), (MethodC_encrypt_affine d2) by auto.
    apply lxor_cancel_common.
Qed.

Lemma encrypt_lxor_difference_witness :
  wf 1311768467294899695 /\ wf 93824992215040 /\ wf 93824992215056 /\
  Z.lxor (encrypt MethodB 93824992215040 1311768467294899695)
         (encrypt MethodB 93824992215056 1311768467294899695) =
  rotate_left (Z.lxor 93824992215040 93824992215056) 22.
Proof.
  split; [unfold wf; lia|]. split; [unfold wf; lia|]. split; [unfold wf; lia|].
  apply (encrypt_lxor_difference MethodB); unfold wf; lia.
Defined.


(** X5: a write through [deref_mut] on a pointer built from the address of
    a live allocation changes the [T] at that address and nothing else, and
    the next [deref] reads the written value. *)
Theorem deref_mut_write_then_deref {T : Type} (h : @heap T) (now : clock_reading)
    (choice : nat) (ptr : Z) (p : EncryptedPtr) (old value : T) :
  wf ptr -> new now choice ptr = Some p -> h ptr = Some old ->
  exists h',
    deref_mut_write h p value = Some h' /\
    deref h' p = Some value /\
    (forall b, b <> ptr -> h' b = h b).
Proof.
  intros Hp Hn Hold. pose proof (new_decrypt_ptr _ _ _ _ Hp Hn) as Hd.
  unfold deref_mut_write, deref. rewrite Hd, Hold.
  eexists. split; [reflexivity|]. split.
  - unfold heap_update. rewrite Z.eqb_refl. reflexivity.
  - intros b Hb. unfold heap_update. destruct (Z.eqb_spec b ptr); [contradiction | reflexivity].
Qed.

Lemma deref_mut_write_then_deref_witness :
  exists p h',
    new (Some 1760000000000000000) 1 93824992215040 = Some p /\
    deref_mut_write (box_new empty_heap 93824992215040 {| health := 100 |}) p
      {| health := 42 |} = Some h' /\
    deref h' p = Some {| health := 42 |}.
Proof.
  destruct (new (Some 1760000000000000000) 1 93824992215040) as [p|] eqn:Hn;
    [|discriminate].
  destruct (deref_mut_write_then_deref
              (box_new empty_heap 93824992215040 {| health := 100 |})
              (Some 1760000000000000000) 1 93824992215040 p
              {| health := 100 |} {| health := 42 |})
    as (h' & Hw & Hr & _); [unfold wf; lia | exact Hn | reflexivity |].
  exists p, h'. auto.
Defined.

(** X6: dropping a pointer built from the address of a live allocation hands
    exactly the [T] stored there to its destructor, frees that allocation
    and no other, and leaves no live [T] behind the pointer. *)
Theorem drop_frees_allocation {T : Type} (h : @heap T) (now : clock_reading)
    (choice : nat) (ptr : Z) (p : EncryptedPtr) (v : T) :
  wf ptr -> new now choice ptr = Some p -> h ptr = Some v ->
  exists h',
    drop h p = Some (v, h') /\
    h' ptr = None /\ deref h' p = None /\
    (forall b, b <> ptr -> h' b = h b).
Proof.
  intros Hp Hn Hv. pose proof (new_decrypt_ptr _ _ _ _ Hp Hn) as Hd.
  unfold drop, deref. rewrite Hd, Hv.
  eexists. split; [reflexivity|].
  unfold heap_update. rewrite Z.eqb_refl. split; [reflexivity|]. split; [reflexivity|].
  intros b Hb. destruct (Z.eqb_spec b ptr); [contradiction | reflexivity].
Qed.

Lemma drop_frees_allocation_witness :
  exists p h',
    new (Some 1760000000000000000) 2 93824992215040 = Some p /\
    drop (box_new empty_heap 93824992215040 {| health := 100 |}) p =
      Some ({| health := 100 |}, h') /\
    deref h' p = None.
Proof.
  destruct (new (Some 1760000000000000000) 2 93824992215040) as [p|] eqn:Hn;
    [|discriminate].
  destruct (drop_frees_allocation
              (box_new empty_heap 93824992215040 {| health := 100 |})
              (Some 1760000000000000000) 2 93824992215040 p {| health := 100 |})
    as (h' & Hd & _ & Hdr & _); [unfold wf; lia | exact Hn | reflexivity |].
  exists p, h'. auto.
Defined.
